(** * logo.py : the hue-shifting / blinking logo animation generator

    Shallow embedding of [logo.py] (zebreus/rudelblinken) and of the two
    functions of Python's [colorsys] module that it vectorises.

    Numbers: the script computes with Python / numpy floats.  They are
    modelled here as exact real numbers ([R] from the Standard Library); all
    statements are therefore about the ideal (rounding-free) computation the
    script describes.  Integers of the script ([int], [range], [round],
    [uint8]) are [Z] or [nat].

    Arrays: an H x W x 4 numpy array is a list of rows, each row a list of
    pixels.  [np.rollaxis] + [np.vectorize] + [np.dstack] apply a scalar
    function to every pixel independently, which is [map (map f)]. *)

From Stdlib Require Import Reals Lra Lia List ZArith.
Import ListNotations.

Open Scope R_scope.

(** ** Python numeric primitives *)

Module Py.

(** [math.floor] on a float: [Int_part] is the floor of a real. *)
Definition floor (x : R) : Z := Int_part x.

(** [int(x)] on a float truncates toward zero. *)
Definition int (x : R) : Z :=
  if Rle_dec 0 x then Int_part x else (- Int_part (- x))%Z.

(** Float modulo [x % y]: the result has the sign of [y],
    mathematically [x - floor(x / y) * y]. *)
Definition fmod (x y : R) : R := x - IZR (floor (x / y)) * y.

(** [round(x)] of Python 3: round half to even. *)
Definition round (x : R) : Z :=
  let n := floor x in
  let d := x - IZR n in
  if Rlt_dec d (1/2) then n
  else if Rlt_dec (1/2) d then (n + 1)%Z
  else if Z.even n then n else (n + 1)%Z.

End Py.

(** ** colorsys (CPython 3.11, Lib/colorsys.py) *)

Module colorsys.

Definition rgb_to_hsv (r g b : R) : R * R * R :=
  let maxc := Rmax r (Rmax g b) in
  let minc := Rmin r (Rmin g b) in
  let rangec := maxc - minc in
  let v := maxc in
  if Req_EM_T minc maxc then (0, 0, v)
  else
    let s := rangec / maxc in
    let rc := (maxc - r) / rangec in
    let gc := (maxc - g) / rangec in
    let bc := (maxc - b) / rangec in
    let h :=
      if Req_EM_T r maxc then bc - gc
      else if Req_EM_T g maxc then 2 + rc - bc
      else 4 + gc - rc in
    let h := Py.fmod (h / 6) 1 in
    (h, s, v).

Definition hsv_to_rgb (h s v : R) : R * R * R :=
  if Req_EM_T s 0 then (v, v, v)
  else
    let i := Py.int (h * 6) in
    let f := h * 6 - IZR i in
    let p := v * (1 - s) in
    let q := v * (1 - s * f) in
    let t := v * (1 - s * (1 - f)) in
    match (i mod 6)%Z with
    | 0%Z => (v, t, p)
    | 1%Z => (q, v, p)
    | 2%Z => (p, v, t)
    | 3%Z => (p, q, v)
    | 4%Z => (t, p, v)
    | _ => (v, p, q)  (* i mod 6 = 5; "Cannot get here" otherwise *)
    end.

End colorsys.

(** ** Pixels and rasters *)

(** One pixel of a float array ([arr[..., 0:4]] after [astype('float')]). *)
Record fpixel := FPixel { pr : R; pg : R; pb : R; pa : R }.

(** One pixel of a [uint8] array (what [PIL] decodes / encodes). *)
Record upixel := UPixel { ur : Z; ug : Z; ub : Z; ua : Z }.

Definition raster (A : Type) := list (list A).

(** [arr.astype('float')]. *)
Definition astype_float_px (p : upixel) : fpixel :=
  FPixel (IZR (ur p)) (IZR (ug p)) (IZR (ub p)) (IZR (ua p)).

Definition astype_float (arr : raster upixel) : raster fpixel :=
  map (map astype_float_px) arr.

(** [arr.astype('uint8')] on a float array: numpy's C cast
    [(npy_ubyte) x], which the usual x86-64 build compiles to a truncating
    conversion to a 32-bit int ([cvttsd2si]) followed by taking its low
    byte.  The conversion truncates toward zero; a value whose truncation
    does not fit in 32 bits gives the "integer indefinite" [0x80000000],
    whose low byte is 0.  Nothing is clamped. *)
Definition INT32_MIN : Z := (- 2147483648)%Z.
Definition INT32_MAX : Z := 2147483647%Z.

Definition cvttsd2si (x : R) : Z :=
  let t := Py.int x in
  if andb (INT32_MIN <=? t)%Z (t <=? INT32_MAX)%Z then t else INT32_MIN.

Definition to_uint8 (x : R) : Z := (cvttsd2si x mod 256)%Z.

Definition astype_uint8_px (p : fpixel) : upixel :=
  UPixel (to_uint8 (pr p)) (to_uint8 (pg p)) (to_uint8 (pb p)) (to_uint8 (pa p)).

Definition astype_uint8 (arr : raster fpixel) : raster upixel :=
  map (map astype_uint8_px) arr.

(** ** The colour transforms of logo.py *)

(** Body of [shift_hue] for one pixel. *)
Definition shift_hue_px (hout factor : R) (px : fpixel) : fpixel :=
  let '(h, s, v) := colorsys.rgb_to_hsv (pr px) (pg px) (pb px) in
  let h := hout in
  let v := v * factor in
  let '(r, g, b) := colorsys.hsv_to_rgb h s v in
  FPixel r g b (pa px).

Definition shift_hue (arr : raster fpixel) (hout factor : R) : raster fpixel :=
  map (map (shift_hue_px hout factor)) arr.

(** Body of [only_red] for one pixel. *)
Definition only_red_px (px : fpixel) : fpixel :=
  let r := pr px in
  let g := 0 in
  let b := 0 in
  let '(h, s, v) := colorsys.rgb_to_hsv r g b in
  let '(r, g, b) := colorsys.hsv_to_rgb h s v in
  FPixel r g b (pa px).

Definition only_red (arr : raster fpixel) : raster fpixel :=
  map (map only_red_px) arr.

(** Body of [adjust_brightness] for one pixel (the function is defined in
    logo.py but not called by the script). *)
Definition adjust_brightness_px (factor : R) (px : fpixel) : fpixel :=
  let '(h, s, v) := colorsys.rgb_to_hsv (pr px) (pg px) (pb px) in
  let v := v * factor in
  let '(r, g, b) := colorsys.hsv_to_rgb h s v in
  FPixel r g b (pa px).

Definition adjust_brightness (arr : raster fpixel) (factor : R) : raster fpixel :=
  map (map (adjust_brightness_px factor)) arr.

(** ** The script *)

(** The module-level constants, as a record so that the statements can
    range over other values of them as well. *)
Record config := Config {
  FRAME_RATE : nat;  (* frames per second *)
  DURATION : nat;    (* seconds *)
  SHIFTS : nat;
  BLINKS : nat }.

Definition logo_config : config :=
  {| FRAME_RATE := 15; DURATION := 3; SHIFTS := 1; BLINKS := 3 |}.

(** The loop body's time parameters for index [i]. *)
Definition elapsed_time (c : config) (i : nat) : R := INR i / INR (FRAME_RATE c).

Definition hue (c : config) (i : nat) : R :=
  elapsed_time c i * (INR (SHIFTS c) / INR (DURATION c)) * 1.

Definition brightness (c : config) (i : nat) : R :=
  1/2 + 1/2 * sin (2 * PI * (INR (BLINKS c) / INR (DURATION c)) * elapsed_time c i).

(** The [(hue, brightness)] pairs of [for i in range(FRAME_RATE * DURATION)]. *)
Definition schedule (c : config) : list (R * R) :=
  map (fun i => (hue c i, brightness c i)) (seq 0 (FRAME_RATE c * DURATION c)).

(** [arr = only_red(np.asarray(input_logo).astype('float')).astype('float')]. *)
Definition baseline (src : raster upixel) : raster fpixel :=
  only_red (astype_float src).

(** [Image.fromarray(shift_hue(arr, hue, brightness).astype('uint8'), 'RGBA')]. *)
Definition render (arr : raster fpixel) (hb : R * R) : raster upixel :=
  astype_uint8 (shift_hue arr (fst hb) (snd hb)).

(** The list [frames] after the loop ([print] is left out: it only writes
    to stdout). *)
Definition frames (c : config) (src : raster upixel) : list (raster upixel) :=
  map (render (baseline src)) (schedule c).

(** The arguments of [frames[0].save(OUTPUT_FILE, save_all=True,
    append_images=frames[1:], duration=1000/FRAME_RATE, loop=0)]. *)
Record save_call := SaveCall {
  save_first : raster upixel;
  save_append : list (raster upixel);
  save_duration : R;
  save_loop : Z }.

Inductive py_exc := ZeroDivisionError | IndexError.

(** How a run ends: the encoder is called, or an uncaught exception is
    raised at a source line of logo.py. *)
Inductive outcome :=
| Saved (call : save_call)
| Raised (line : nat) (e : py_exc).

(** [round(1000 / FRAME_RATE)], line 51 (assigned, never read again). *)
Definition frame_duration_ms (c : config) : Z := Py.round (1000 / INR (FRAME_RATE c)).

(** The script from line 51 on, for a decoded source image [src]. *)
Definition main (c : config) (src : raster upixel) : outcome :=
  if Nat.eqb (FRAME_RATE c) 0 then Raised 51 ZeroDivisionError
  else
    let _ := frame_duration_ms c in
    match frames c src with
    | [] => Raised 66 IndexError
    | f0 :: rest =>
        Saved {| save_first := f0; save_append := rest;
                 save_duration := 1000 / INR (FRAME_RATE c); save_loop := 0 |}
    end.

(** ** Predicates and views used by the statements *)

(** A decoded [uint8] image: every sample in [0, 255]. *)
Definition uint8_ok (z : Z) : bool := (0 <=? z)%Z && (z <=? 255)%Z.

Definition upixel_ok (p : upixel) : bool :=
  uint8_ok (ur p) && uint8_ok (ug p) && uint8_ok (ub p) && uint8_ok (ua p).

Definition wf_image (src : raster upixel) : bool := forallb (forallb upixel_ok) src.

(** [arr[i, j]] (None when out of bounds). *)
Definition pixel_at {A : Type} (arr : raster A) (i j : nat) : option A :=
  match nth_error arr i with
  | Some row => nth_error row j
  | None => None
  end.

(** Every channel of a float pixel lies in [0, 255]. *)
Definition fpixel_in_range (p : fpixel) : Prop :=
  0 <= pr p <= 255 /\ 0 <= pg p <= 255 /\ 0 <= pb p <= 255 /\ 0 <= pa p <= 255.

(** The colour channels of a float pixel are non-negative. *)
Definition fpixel_nonneg (p : fpixel) : Prop := 0 <= pr p /\ 0 <= pg p /\ 0 <= pb p.

(** The colour channels multiplied by [k], alpha kept. *)
Definition scale_px (k : R) (p : fpixel) : fpixel :=
  FPixel (k * pr p) (k * pg p) (k * pb p) (pa p).

(** Channel-wise floor, i.e. the cast without any wrap-around. *)
Definition floor_px (p : fpixel) : upixel :=
  UPixel (Int_part (pr p)) (Int_part (pg p)) (Int_part (pb p)) (Int_part (pa p)).

(** ** Facts about the Python primitives *)

Lemma Int_part_eq (k : Z) (x : R) :
  IZR k <= x < IZR k + 1 -> Int_part x = k.
Proof.
  intros [H1 H2]. unfold Int_part.
  assert (Hup : up x = (k + 1)%Z).
  { symmetry. apply tech_up; rewrite plus_IZR; simpl; lra. }
  lia.
Qed.

Lemma py_int_nonneg (k : Z) (x : R) :
  (0 <= k)%Z -> IZR k <= x < IZR k + 1 -> Py.int x = k.
Proof.
  intros Hk Hx. unfold Py.int.
  destruct (Rle_dec 0 x) as [_|Hn].
  - now apply Int_part_eq.
  - apply IZR_le in Hk. lra.
Qed.

Lemma fmod1_unit (x : R) : 0 <= x < 1 -> Py.fmod x 1 = x.
Proof.
  intros Hx. unfold Py.fmod, Py.floor.
  rewrite (Int_part_eq 0); [simpl; lra|].
  replace (x / 1) with x by field. simpl; lra.
Qed.

Lemma fmod1_neg (x : R) : -1 <= x < 0 -> Py.fmod x 1 = x + 1.
Proof.
  intros Hx. unfold Py.fmod, Py.floor.
  rewrite (Int_part_eq (-1)).
  - simpl. lra.
  - replace (x / 1) with x by field. simpl. lra.
Qed.

Lemma frac_le1 (a d : R) : 0 < d -> 0 <= a <= d -> 0 <= a / d <= 1.
Proof.
  intros Hd [H1 H2]. split.
  - apply Rmult_le_pos; [lra|]. left. now apply Rinv_0_lt_compat.
  - apply (Rmult_le_reg_r d); [lra|]. field_simplify; lra.
Qed.

Lemma frac_lt1 (a d : R) : 0 < d -> 0 <= a < d -> 0 <= a / d < 1.
Proof.
  intros Hd [H1 H2]. split.
  - apply Rmult_le_pos; [lra|]. left. now apply Rinv_0_lt_compat.
  - apply (Rmult_lt_reg_r d); [lra|]. field_simplify; lra.
Qed.

Lemma frac_pos (a d : R) : 0 < d -> 0 < a -> 0 < a / d.
Proof.
  intros Hd Ha. apply Rmult_lt_0_compat; [lra|]. now apply Rinv_0_lt_compat.
Qed.

(** [hsv_to_rgb] in the sector [k <= 6 h < k + 1] of the hue circle. *)
Lemma hsv_to_rgb_sector (h s v : R) (k : Z) :
  s <> 0 -> (0 <= k)%Z -> IZR k <= h * 6 < IZR k + 1 ->
  colorsys.hsv_to_rgb h s v =
    (let f := h * 6 - IZR k in
     let p := v * (1 - s) in
     let q := v * (1 - s * f) in
     let t := v * (1 - s * (1 - f)) in
     match (k mod 6)%Z with
     | 0%Z => (v, t, p)
     | 1%Z => (q, v, p)
     | 2%Z => (p, v, t)
     | 3%Z => (p, q, v)
     | 4%Z => (t, p, v)
     | _ => (v, p, q)
     end).
Proof.
  intros Hs Hk Hh. unfold colorsys.hsv_to_rgb.
  destruct (Req_EM_T s 0) as [E|_]; [contradiction|].
  now rewrite (py_int_nonneg k).
Qed.

(** ** colorsys round trip, sector by sector *)

Ltac rmaxmin M m :=
  let HM := fresh "HM" in let Hm := fresh "Hm" in
  match goal with
  | |- context [Rmax ?x (Rmax ?y ?z)] =>
      assert (HM : Rmax x (Rmax y z) = M) by (unfold Rmax; repeat destruct Rle_dec; lra);
      assert (Hm : Rmin x (Rmin y z) = m) by (unfold Rmin; repeat destruct Rle_dec; lra);
      rewrite HM, Hm; clear HM Hm
  end.

Ltac rdec :=
  repeat match goal with
  | |- context [Req_EM_T ?x ?y] =>
      destruct (Req_EM_T x y);
      [ try (exfalso; lra)
      | try (exfalso; congruence); try (exfalso; match goal with
          | E : x <> y |- _ => apply E; ring end) ]
  end.

Ltac sector k :=
  rewrite (hsv_to_rgb_sector _ _ _ k);
  [ cbn -[Rmult Rplus Rminus Rdiv]
  | apply Rgt_not_eq; first [ lra | apply frac_pos; lra ]
  | lia
  | simpl; lra ].

Lemma case_a1 (r g b : R) :
  0 <= b -> b <= g -> g < r ->
  (let '(h, s, v) := colorsys.rgb_to_hsv r g b in colorsys.hsv_to_rgb h s v) = (r, g, b).
Proof.
  intros H0 H1 H2. unfold colorsys.rgb_to_hsv. rmaxmin r b. rdec.
  set (u := (r - g) / (r - b)).
  assert (Hu : 0 < u <= 1) by (split; [apply frac_pos|apply frac_le1]; lra).
  replace ((r - b) / (r - b)) with 1 by (field; lra).
  rewrite fmod1_unit by lra.
  sector 0%Z. unfold u; repeat f_equal; field; lra.
Qed.

Lemma case_a1' (r b : R) :
  0 <= b -> b < r ->
  (let '(h, s, v) := colorsys.rgb_to_hsv r r b in colorsys.hsv_to_rgb h s v) = (r, r, b).
Proof.
  intros H0 H1. unfold colorsys.rgb_to_hsv. rmaxmin r b. rdec.
  replace ((r - b) / (r - b)) with 1 by (field; lra).
  replace ((r - r) / (r - b)) with 0 by (field; lra).
  rewrite fmod1_unit by lra.
  sector 1%Z. repeat f_equal; field; lra.
Qed.

Lemma case_a2 (r g b : R) :
  0 <= g -> g < b -> b <= r ->
  (let '(h, s, v) := colorsys.rgb_to_hsv r g b in colorsys.hsv_to_rgb h s v) = (r, g, b).
Proof.
  intros H0 H1 H2. unfold colorsys.rgb_to_hsv. rmaxmin r g. rdec.
  set (w := (r - b) / (r - g)).
  assert (Hw : 0 <= w < 1) by (apply frac_lt1; lra).
  replace ((r - g) / (r - g)) with 1 by (field; lra).
  rewrite fmod1_neg by lra.
  sector 5%Z. unfold w; repeat f_equal; field; lra.
Qed.

Lemma case_b1 (r g b : R) :
  0 <= b -> b < r -> r < g ->
  (let '(h, s, v) := colorsys.rgb_to_hsv r g b in colorsys.hsv_to_rgb h s v) = (r, g, b).
Proof.
  intros H0 H1 H2. unfold colorsys.rgb_to_hsv. rmaxmin g b. rdec.
  set (u := (g - r) / (g - b)).
  assert (Hu : 0 < u < 1) by (split; [apply frac_pos|apply frac_lt1]; lra).
  replace ((g - b) / (g - b)) with 1 by (field; lra).
  rewrite fmod1_unit by lra.
  sector 1%Z. unfold u; repeat f_equal; field; lra.
Qed.

Lemma case_b1' (g b : R) :
  0 <= b -> b < g ->
  (let '(h, s, v) := colorsys.rgb_to_hsv b g b in colorsys.hsv_to_rgb h s v) = (b, g, b).
Proof.
  intros H0 H1. unfold colorsys.rgb_to_hsv. rmaxmin g b. rdec.
  replace ((g - b) / (g - b)) with 1 by (field; lra).
  rewrite fmod1_unit by lra.
  sector 2%Z. repeat f_equal; field; lra.
Qed.

Lemma case_b2 (r g b : R) :
  0 <= r -> r < b -> b < g ->
  (let '(h, s, v) := colorsys.rgb_to_hsv r g b in colorsys.hsv_to_rgb h s v) = (r, g, b).
Proof.
  intros H0 H1 H2. unfold colorsys.rgb_to_hsv. rmaxmin g r. rdec.
  set (w := (g - b) / (g - r)).
  assert (Hw : 0 < w < 1) by (split; [apply frac_pos|apply frac_lt1]; lra).
  replace ((g - r) / (g - r)) with 1 by (field; lra).
  rewrite fmod1_unit by lra.
  sector 2%Z. unfold w; repeat f_equal; field; lra.
Qed.

Lemma case_b2' (r g : R) :
  0 <= r -> r < g ->
  (let '(h, s, v) := colorsys.rgb_to_hsv r g g in colorsys.hsv_to_rgb h s v) = (r, g, g).
Proof.
  intros H0 H1. unfold colorsys.rgb_to_hsv. rmaxmin g r. rdec.
  replace ((g - r) / (g - r)) with 1 by (field; lra).
  replace ((g - g) / (g - r)) with 0 by (field; lra).
  rewrite fmod1_unit by lra.
  sector 3%Z. repeat f_equal; field; lra.
Qed.

Lemma case_c1 (r g b : R) :
  0 <= r -> r < g -> g < b ->
  (let '(h, s, v) := colorsys.rgb_to_hsv r g b in colorsys.hsv_to_rgb h s v) = (r, g, b).
Proof.
  intros H0 H1 H2. unfold colorsys.rgb_to_hsv. rmaxmin b r. rdec.
  set (u := (b - g) / (b - r)).
  assert (Hu : 0 < u < 1) by (split; [apply frac_pos|apply frac_lt1]; lra).
  replace ((b - r) / (b - r)) with 1 by (field; lra).
  rewrite fmod1_unit by lra.
  sector 3%Z. unfold u; repeat f_equal; field; lra.
Qed.

Lemma case_c1' (r b : R) :
  0 <= r -> r < b ->
  (let '(h, s, v) := colorsys.rgb_to_hsv r r b in colorsys.hsv_to_rgb h s v) = (r, r, b).
Proof.
  intros H0 H1. unfold colorsys.rgb_to_hsv. rmaxmin b r. rdec.
  replace ((b - r) / (b - r)) with 1 by (field; lra).
  rewrite fmod1_unit by lra.
  sector 4%Z. repeat f_equal; field; lra.
Qed.

Lemma case_c2 (r g b : R) :
  0 <= g -> g < r -> r < b ->
  (let '(h, s, v) := colorsys.rgb_to_hsv r g b in colorsys.hsv_to_rgb h s v) = (r, g, b).
Proof.
  intros H0 H1 H2. unfold colorsys.rgb_to_hsv. rmaxmin b g. rdec.
  set (w := (b - r) / (b - g)).
  assert (Hw : 0 < w < 1) by (split; [apply frac_pos|apply frac_lt1]; lra).
  replace ((b - g) / (b - g)) with 1 by (field; lra).
  rewrite fmod1_unit by lra.
  sector 4%Z. unfold w; repeat f_equal; field; lra.
Qed.

Lemma case_gray (r : R) :
  (let '(h, s, v) := colorsys.rgb_to_hsv r r r in colorsys.hsv_to_rgb h s v) = (r, r, r).
Proof.
  unfold colorsys.rgb_to_hsv. rmaxmin r r. rdec.
  unfold colorsys.hsv_to_rgb. rdec. reflexivity.
Qed.

Lemma rgb_hsv_rgb (r g b : R) :
  0 <= r -> 0 <= g -> 0 <= b ->
  (let '(h, s, v) := colorsys.rgb_to_hsv r g b in colorsys.hsv_to_rgb h s v) = (r, g, b).
Proof.
  intros Hr Hg Hb.
  destruct (Rle_lt_dec g r) as [Hgr|Hrg]; destruct (Rle_lt_dec b r) as [Hbr|Hrb].
  - destruct (Rle_lt_dec b g) as [Hbg|Hgb].
    + destruct (Rlt_le_dec g r) as [Hgr'|Hrg'].
      * now apply case_a1.
      * replace g with r by lra.
        destruct (Rlt_le_dec b r) as [Hbr'|Hrb'].
        -- now apply case_a1'.
        -- replace b with r by lra. apply case_gray.
    + now apply case_a2.
  - destruct (Rle_lt_dec r g) as [Hrg|Hgr'].
    + replace g with r by lra. now apply case_c1'.
    + now apply case_c2.
  - destruct (Rlt_le_dec b r) as [Hbr'|Hrb'].
    + now apply case_b1.
    + replace b with r by lra. now apply case_b1'.
  - destruct (Rlt_le_dec b g) as [Hbg|Hgb].
    + now apply case_b2.
    + destruct (Rlt_le_dec g b) as [Hgb'|Hbg'].
      * now apply case_c1.
      * replace b with g by lra. now apply case_b2'.
Qed.

Lemma fmod1_range (x : R) : 0 <= Py.fmod x 1 < 1.
Proof.
  unfold Py.fmod, Py.floor. replace (x / 1) with x by field.
  destruct (base_Int_part x) as [H1 H2]. lra.
Qed.

Lemma rgb_to_hsv_range (r g b : R) :
  0 <= r -> 0 <= g -> 0 <= b ->
  let '(h, s, v) := colorsys.rgb_to_hsv r g b in
  0 <= h < 1 /\ 0 <= s <= 1 /\ v = Rmax r (Rmax g b).
Proof.
  intros Hr Hg Hb. unfold colorsys.rgb_to_hsv.
  assert (Hmm : 0 <= Rmin r (Rmin g b) <= Rmax r (Rmax g b))
    by (unfold Rmin, Rmax; repeat destruct Rle_dec; lra).
  destruct (Req_EM_T _ _) as [E|E].
  - repeat split; lra.
  - split; [apply fmod1_range|]. split; [|reflexivity].
    apply frac_le1; [|lra]. destruct Hmm as [H1 H2].
    destruct H2 as [H2|H2]; [lra|]. congruence.
Qed.

Ltac nz := repeat split; apply Rgt_not_eq; first [ lra | nra ].

Ltac fmod_arg e :=
  match goal with
  | |- context [Py.fmod ?x 1] => replace x with e by (field; nz)
  end.

(** One sector [k <= 6 h < k + 1] of the reverse round trip: [f] is the
    position inside the sector, [h] is rewritten as [(k + f) / 6]. *)
Ltac hsv_setup h s v k :=
  sector k;
  let f := fresh "f" in
  let Eh := fresh "Eh" in
  set (f := h * 6 - IZR k);
  assert (0 <= f < 1) by (unfold f; simpl; lra);
  assert (Eh : h = (IZR k + f) / 6) by (unfold f; field);
  clearbody f; rewrite Eh;
  assert (0 < v * s) by nra;
  assert (0 <= v * s * f) by nra;
  assert (0 < v * s * (1 - f)) by nra;
  replace (v * (1 - s)) with (v - v * s) by ring;
  replace (v * (1 - s * f)) with (v - v * s * f) by ring;
  replace (v * (1 - s * (1 - f))) with (v - v * s * (1 - f)) by ring;
  unfold colorsys.rgb_to_hsv.

Ltac pair_eq := repeat (apply pair_equal_spec; split).

Ltac hsv_finish M m e :=
  rmaxmin M m; rdec; fmod_arg e;
  first [ rewrite fmod1_unit by lra | rewrite fmod1_neg by lra ];
  simpl; pair_eq; field; nz.

Lemma hsv_k0 (h s v : R) :
  0 < s <= 1 -> 0 < v -> 0 <= h * 6 < 1 ->
  (let '(r, g, b) := colorsys.hsv_to_rgb h s v in colorsys.rgb_to_hsv r g b) = (h, s, v).
Proof.
  intros Hs Hv Hh. hsv_setup h s v 0%Z. hsv_finish v (v - v * s) (f / 6).
Qed.

Lemma hsv_k1 (h s v : R) :
  0 < s <= 1 -> 0 < v -> 1 <= h * 6 < 2 ->
  (let '(r, g, b) := colorsys.hsv_to_rgb h s v in colorsys.rgb_to_hsv r g b) = (h, s, v).
Proof.
  intros Hs Hv Hh. hsv_setup h s v 1%Z.
  destruct (Req_dec f 0) as [->|Hf].
  - replace (v - v * s * 0) with v by ring. hsv_finish v (v - v * s) (1 / 6).
  - assert (0 < v * s * f) by nra. hsv_finish v (v - v * s) ((1 + f) / 6).
Qed.

Lemma hsv_k2 (h s v : R) :
  0 < s <= 1 -> 0 < v -> 2 <= h * 6 < 3 ->
  (let '(r, g, b) := colorsys.hsv_to_rgb h s v in colorsys.rgb_to_hsv r g b) = (h, s, v).
Proof.
  intros Hs Hv Hh. hsv_setup h s v 2%Z. hsv_finish v (v - v * s) ((2 + f) / 6).
Qed.

Lemma hsv_k3 (h s v : R) :
  0 < s <= 1 -> 0 < v -> 3 <= h * 6 < 4 ->
  (let '(r, g, b) := colorsys.hsv_to_rgb h s v in colorsys.rgb_to_hsv r g b) = (h, s, v).
Proof.
  intros Hs Hv Hh. hsv_setup h s v 3%Z.
  destruct (Req_dec f 0) as [->|Hf].
  - replace (v - v * s * 0) with v by ring. hsv_finish v (v - v * s) (3 / 6).
  - assert (0 < v * s * f) by nra. hsv_finish v (v - v * s) ((3 + f) / 6).
Qed.

Lemma hsv_k4 (h s v : R) :
  0 < s <= 1 -> 0 < v -> 4 <= h * 6 < 5 ->
  (let '(r, g, b) := colorsys.hsv_to_rgb h s v in colorsys.rgb_to_hsv r g b) = (h, s, v).
Proof.
  intros Hs Hv Hh. hsv_setup h s v 4%Z. hsv_finish v (v - v * s) ((4 + f) / 6).
Qed.

Lemma hsv_k5 (h s v : R) :
  0 < s <= 1 -> 0 < v -> 5 <= h * 6 < 6 ->
  (let '(r, g, b) := colorsys.hsv_to_rgb h s v in colorsys.rgb_to_hsv r g b) = (h, s, v).
Proof.
  intros Hs Hv Hh. hsv_setup h s v 5%Z. hsv_finish v (v - v * s) ((f - 1) / 6).
Qed.

Lemma hsv_rgb_hsv (h s v : R) :
  0 <= h < 1 -> 0 < s <= 1 -> 0 < v ->
  (let '(r, g, b) := colorsys.hsv_to_rgb h s v in colorsys.rgb_to_hsv r g b) = (h, s, v).
Proof.
  intros Hh Hs Hv.
  destruct (Rlt_le_dec (h * 6) 1); [apply hsv_k0; lra|].
  destruct (Rlt_le_dec (h * 6) 2); [apply hsv_k1; lra|].
  destruct (Rlt_le_dec (h * 6) 3); [apply hsv_k2; lra|].
  destruct (Rlt_le_dec (h * 6) 4); [apply hsv_k3; lra|].
  destruct (Rlt_le_dec (h * 6) 5); [apply hsv_k4; lra|].
  apply hsv_k5; lra.
Qed.

(** [hsv_to_rgb] with a non-negative hue and [0 <= s <= 1] returns
    channels between [0] and [v]. *)
Lemma hsv_to_rgb_bounds (h s v : R) :
  0 <= h -> 0 <= s <= 1 -> 0 <= v ->
  let '(r, g, b) := colorsys.hsv_to_rgb h s v in
  0 <= r <= v /\ 0 <= g <= v /\ 0 <= b <= v.
Proof.
  intros Hh Hs Hv. unfold colorsys.hsv_to_rgb.
  destruct (Req_EM_T s 0) as [_|Hs0]; [lra|].
  unfold Py.int. destruct (Rle_dec 0 (h * 6)) as [_|Hn]; [|lra].
  destruct (base_Int_part (h * 6)) as [H1 H2].
  set (k := Int_part (h * 6)) in *.
  set (f := h * 6 - IZR k).
  assert (Hf : 0 <= f <= 1) by (unfold f; lra).
  assert (0 <= v * s <= v) by nra.
  assert (0 <= v * s * f <= v * s) by nra.
  assert (0 <= v * s * (1 - f) <= v * s) by nra.
  replace (v * (1 - s)) with (v - v * s) by ring.
  replace (v * (1 - s * f)) with (v - v * s * f) by ring.
  replace (v * (1 - s * (1 - f))) with (v - v * s * (1 - f)) by ring.
  generalize (k mod 6)%Z; intros z.
  repeat match goal with
  | |- context [match ?x with _ => _ end] => is_var x; destruct x
  end; repeat split; lra.
Qed.

(** ** Pixel-level facts about logo.py *)

Lemma upixel_ok_spec (p : upixel) :
  upixel_ok p = true ->
  (0 <= ur p <= 255 /\ 0 <= ug p <= 255 /\ 0 <= ub p <= 255 /\ 0 <= ua p <= 255)%Z.
Proof.
  unfold upixel_ok, uint8_ok. intros H.
  repeat rewrite andb_true_iff in H. repeat rewrite Z.leb_le in H. lia.
Qed.

Lemma wf_image_pixel (src : raster upixel) (row : list upixel) (p : upixel) :
  wf_image src = true -> In row src -> In p row ->
  (0 <= ur p <= 255 /\ 0 <= ug p <= 255 /\ 0 <= ub p <= 255 /\ 0 <= ua p <= 255)%Z.
Proof.
  unfold wf_image. intros H Hrow Hp.
  rewrite forallb_forall in H. specialize (H row Hrow).
  rewrite forallb_forall in H. now apply upixel_ok_spec, H.
Qed.

Lemma IZR_uint8 (z : Z) : (0 <= z <= 255)%Z -> 0 <= IZR z <= 255.
Proof. intros [H1 H2]. apply IZR_le in H1, H2. lra. Qed.

(** For [0 <= x < 2^31] the 32-bit conversion is the floor. *)
Lemma cvttsd2si_int32 (x : R) :
  0 <= x < 2147483648 -> cvttsd2si x = Int_part x /\ (0 <= Int_part x < 2147483648)%Z.
Proof.
  intros Hx. unfold cvttsd2si, Py.int.
  destruct (Rle_dec 0 x) as [_|Hn]; [|lra].
  destruct (base_Int_part x) as [H1 H2].
  assert (Hlo : (-1 < Int_part x)%Z) by (apply lt_IZR; simpl; lra).
  assert (Hhi : (Int_part x < 2147483648)%Z) by (apply lt_IZR; simpl; lra).
  unfold INT32_MIN, INT32_MAX.
  replace (andb (-2147483648 <=? Int_part x)%Z (Int_part x <=? 2147483647)%Z) with true
    by (symmetry; apply Bool.andb_true_iff; split; apply Z.leb_le; lia).
  split; [reflexivity | lia].
Qed.

(** From [2^31] on the conversion gives the integer indefinite value. *)
Lemma cvttsd2si_large (x : R) : 2147483648 <= x -> cvttsd2si x = INT32_MIN.
Proof.
  intros Hx. unfold cvttsd2si, Py.int.
  destruct (Rle_dec 0 x) as [_|Hn]; [|lra].
  destruct (base_Int_part x) as [H1 H2].
  assert (Hge : (2147483647 < Int_part x)%Z) by (apply lt_IZR; simpl; lra).
  unfold INT32_MAX.
  replace (Int_part x <=? 2147483647)%Z with false
    by (symmetry; apply Z.leb_gt; lia).
  now rewrite Bool.andb_false_r.
Qed.

Lemma to_uint8_small (x : R) : 0 <= x < 256 -> to_uint8 x = Int_part x.
Proof.
  intros Hx. unfold to_uint8.
  destruct (cvttsd2si_int32 x ltac:(lra)) as [-> Hr].
  destruct (base_Int_part x) as [H1 H2].
  assert (Hhi : (Int_part x < 256)%Z) by (apply lt_IZR; simpl; lra).
  apply Z.mod_small. lia.
Qed.

Lemma to_uint8_IZR (z : Z) : (0 <= z <= 255)%Z -> to_uint8 (IZR z) = z.
Proof.
  intros [Hz1 Hz2]. apply IZR_le in Hz1, Hz2. simpl in Hz1.
  rewrite to_uint8_small by lra.
  apply Int_part_eq. lra.
Qed.

Lemma pa_shift_hue_px (hout factor : R) (p : fpixel) :
  pa (shift_hue_px hout factor p) = pa p.
Proof.
  unfold shift_hue_px.
  destruct (colorsys.rgb_to_hsv _ _ _) as [[h s] v].
  destruct (colorsys.hsv_to_rgb _ _ _) as [[r g] b]. reflexivity.
Qed.

Lemma only_red_px_red (p : fpixel) :
  0 <= pr p -> only_red_px p = FPixel (pr p) 0 0 (pa p).
Proof.
  intros Hr. unfold only_red_px.
  pose proof (rgb_hsv_rgb (pr p) 0 0 Hr (Rle_refl 0) (Rle_refl 0)) as E.
  destruct (colorsys.rgb_to_hsv (pr p) 0 0) as [[h s] v].
  now rewrite E.
Qed.

Lemma baseline_red (src : raster upixel) :
  wf_image src = true ->
  baseline src = map (map (fun p => FPixel (IZR (ur p)) 0 0 (IZR (ua p)))) src.
Proof.
  intros Hwf. unfold baseline, only_red, astype_float.
  rewrite map_map. apply map_ext_in. intros row Hrow.
  rewrite map_map. apply map_ext_in. intros p Hp.
  destruct (wf_image_pixel src row p Hwf Hrow Hp) as [Hr _].
  apply only_red_px_red. simpl. apply IZR_uint8. lia.
Qed.

Lemma pixel_at_map {A B : Type} (f : A -> B) (arr : raster A) (i j : nat) :
  pixel_at (map (map f) arr) i j = option_map f (pixel_at arr i j).
Proof.
  unfold pixel_at. rewrite nth_error_map.
  destruct (nth_error arr i) as [row|]; simpl; [|reflexivity].
  now rewrite nth_error_map.
Qed.

Lemma div_nonneg (a b : R) : 0 <= a -> 0 <= b -> 0 <= a / b.
Proof.
  intros Ha Hb. destruct (Req_dec b 0) as [->|Hb0].
  - unfold Rdiv. rewrite Rinv_0. lra.
  - apply Rmult_le_pos; [lra|]. left. apply Rinv_0_lt_compat. lra.
Qed.

Lemma hue_nonneg (c : config) (i : nat) : 0 <= hue c i.
Proof.
  unfold hue, elapsed_time.
  rewrite Rmult_1_r. apply Rmult_le_pos; apply div_nonneg; apply pos_INR.
Qed.

Lemma brightness_bounds (c : config) (i : nat) : 0 <= brightness c i <= 1.
Proof.
  unfold brightness.
  pose proof (SIN_bound (2 * PI * (INR (BLINKS c) / INR (DURATION c)) * elapsed_time c i)).
  lra.
Qed.

(** [shift_hue] keeps channels of a pixel in [0, 255] when the hue is
    non-negative and the factor in [0, 1]. *)
Lemma shift_hue_px_in_range (hout factor : R) (p : fpixel) :
  0 <= hout -> 0 <= factor <= 1 -> fpixel_in_range p ->
  fpixel_in_range (shift_hue_px hout factor p).
Proof.
  intros Hh Hf (Hr & Hg & Hb & Ha). unfold shift_hue_px.
  pose proof (rgb_to_hsv_range (pr p) (pg p) (pb p)) as Hrange.
  destruct (colorsys.rgb_to_hsv _ _ _) as [[h s] v].
  destruct (Hrange ltac:(lra) ltac:(lra) ltac:(lra)) as (_ & Hs & Hv).
  assert (Hv' : 0 <= v <= 255) by (rewrite Hv; unfold Rmax; repeat destruct Rle_dec; lra).
  assert (Hvf : 0 <= v * factor <= 255) by nra.
  pose proof (hsv_to_rgb_bounds hout s (v * factor) Hh Hs ltac:(lra)) as Hb'.
  destruct (colorsys.hsv_to_rgb _ _ _) as [[r' g'] b'].
  unfold fpixel_in_range; simpl. lra.
Qed.

Lemma pa_only_red_px (p : fpixel) : pa (only_red_px p) = pa p.
Proof.
  unfold only_red_px.
  destruct (colorsys.rgb_to_hsv _ _ _) as [[h s] v].
  destruct (colorsys.hsv_to_rgb _ _ _) as [[r g] b]. reflexivity.
Qed.

Lemma rgb_to_hsv_gray (x : R) : colorsys.rgb_to_hsv x x x = (0, 0, x).
Proof. unfold colorsys.rgb_to_hsv. rmaxmin x x. rdec. reflexivity. Qed.

Lemma rgb_to_hsv_red (r : R) : 0 < r -> colorsys.rgb_to_hsv r 0 0 = (0, 1, r).
Proof.
  intros Hr. unfold colorsys.rgb_to_hsv. rmaxmin r 0. rdec.
  fmod_arg 0. rewrite fmod1_unit by lra. pair_eq; try field; nz.
Qed.

Lemma rgb_to_hsv_sat_pos (r g b : R) :
  0 <= r -> 0 <= g -> 0 <= b ->
  let '(h, s, v) := colorsys.rgb_to_hsv r g b in 0 < s -> 0 < v.
Proof.
  intros Hr Hg Hb. unfold colorsys.rgb_to_hsv.
  assert (Hmm : 0 <= Rmin r (Rmin g b) <= Rmax r (Rmax g b))
    by (unfold Rmin, Rmax; repeat destruct Rle_dec; lra).
  destruct (Req_EM_T _ _) as [E|E]; intros Hs; [lra|].
  destruct Hmm as [H1 [H2|H2]]; [lra|congruence].
Qed.

Lemma schedule_nth (c : config) (i : nat) :
  (i < FRAME_RATE c * DURATION c)%nat ->
  nth_error (schedule c) i = Some (hue c i, brightness c i).
Proof.
  intros Hi. unfold schedule. rewrite nth_error_map.
  rewrite (nth_error_nth' _ 0%nat) by (rewrite length_seq; exact Hi).
  rewrite seq_nth by exact Hi. reflexivity.
Qed.

Lemma length_schedule (c : config) :
  length (schedule c) = (FRAME_RATE c * DURATION c)%nat.
Proof. unfold schedule. now rewrite length_map, length_seq. Qed.

Lemma length_frames (c : config) (src : raster upixel) :
  length (frames c src) = (FRAME_RATE c * DURATION c)%nat.
Proof. unfold frames. now rewrite length_map, length_schedule. Qed.

Lemma frames_nil (c : config) (src : raster upixel) :
  (FRAME_RATE c * DURATION c = 0)%nat -> frames c src = [].
Proof.
  intros H. apply length_zero_iff_nil. now rewrite length_frames.
Qed.

Lemma frames_cons (c : config) (src : raster upixel) :
  (0 < FRAME_RATE c * DURATION c)%nat ->
  exists f0 rest, frames c src = f0 :: rest.
Proof.
  intros H. destruct (frames c src) as [|f0 rest] eqn:E.
  - apply (f_equal (@length _)) in E. rewrite length_frames in E. simpl in E. lia.
  - eauto.
Qed.

Lemma astype_uint8_in_range (arr : raster fpixel) :
  Forall (Forall fpixel_in_range) arr -> astype_uint8 arr = map (map floor_px) arr.
Proof.
  intros H. unfold astype_uint8. apply map_ext_in. intros row Hrow.
  apply map_ext_in. intros p Hp.
  rewrite Forall_forall in H. specialize (H row Hrow).
  rewrite Forall_forall in H. destruct (H p Hp) as (Hr & Hg & Hb & Ha).
  unfold astype_uint8_px, floor_px.
  rewrite !to_uint8_small by lra. reflexivity.
Qed.

Lemma baseline_in_range (src : raster upixel) :
  wf_image src = true -> Forall (Forall fpixel_in_range) (baseline src).
Proof.
  intros Hwf. rewrite (baseline_red src Hwf).
  apply Forall_forall. intros row' Hrow'. apply in_map_iff in Hrow' as [row [<- Hrow]].
  apply Forall_forall. intros p' Hp'. apply in_map_iff in Hp' as [p [<- Hp]].
  destruct (wf_image_pixel src row p Hwf Hrow Hp) as (Hr & _ & _ & Ha).
  apply IZR_uint8 in Hr, Ha. unfold fpixel_in_range; simpl. lra.
Qed.

(** * The claims *)

(** C1: the loop runs [FRAME_RATE * DURATION] times, producing that many
    frames; frame [i] uses [hue(i) = (i / frame_rate) * (shifts / duration)]
    (not wrapped into [0,1)) and
    [brightness(i) = 0.5 + 0.5 * sin(2 pi (blinks / duration) (i / frame_rate))];
    the first frame has [hue = 0] and [brightness = 0.5]. *)
Theorem schedule_frames_spec (c : config) (src : raster upixel) :
  length (frames c src) = (FRAME_RATE c * DURATION c)%nat /\
  length (schedule c) = (FRAME_RATE c * DURATION c)%nat /\
  (forall i, (i < FRAME_RATE c * DURATION c)%nat ->
     nth_error (schedule c) i =
       Some (INR i / INR (FRAME_RATE c) * (INR (SHIFTS c) / INR (DURATION c)),
             1/2 + 1/2 * sin (2 * PI * (INR (BLINKS c) / INR (DURATION c))
                              * (INR i / INR (FRAME_RATE c)))) /\
     nth_error (frames c src) i =
       Some (render (baseline src) (hue c i, brightness c i))) /\
  ((0 < FRAME_RATE c * DURATION c)%nat -> nth_error (schedule c) 0 = Some (0, 1/2)).
Proof.
  split; [apply length_frames|]. split; [apply length_schedule|]. split.
  - intros i Hi. split.
    + rewrite (schedule_nth c i Hi). unfold hue, brightness, elapsed_time.
      now rewrite Rmult_1_r.
    + unfold frames. rewrite nth_error_map, (schedule_nth c i Hi). reflexivity.
  - intros H. rewrite (schedule_nth c 0 H). unfold hue, brightness, elapsed_time.
    simpl INR. unfold Rdiv. rewrite !Rmult_0_l, Rmult_0_r, sin_0. f_equal. f_equal; ring.
Qed.

Lemma schedule_frames_spec_witness :
  nth_error (schedule logo_config) 15 =
    Some (INR 15 / INR 15 * (INR 1 / INR 3),
          1/2 + 1/2 * sin (2 * PI * (INR 3 / INR 3) * (INR 15 / INR 15))) /\
  nth_error (schedule logo_config) 0 = Some (0, 1/2).
Proof.
  destruct (schedule_frames_spec logo_config []) as (_ & _ & Hnth & H0).
  split.
  - exact (proj1 (Hnth 15%nat ltac:(simpl; lia))).
  - apply H0. simpl. lia.
Defined.

(** C2 (as stated it fails): the hue read back from an output pixel is not
    always [h_out].  A black pixel (as produced by [only_red] wherever the
    source has no red) stays black, and black reads back as hue 0. *)
Lemma shift_hue_black_pixel_hue :
  ~ (forall (p : fpixel) (hout factor : R),
       0 <= pr p -> 0 <= pg p -> 0 <= pb p -> 0 <= hout < 1 -> 0 <= factor ->
       let q := shift_hue_px hout factor p in
       fst (fst (colorsys.rgb_to_hsv (pr q) (pg q) (pb q))) = hout).
Proof.
  intros H. specialize (H (FPixel 0 0 0 255) (1/2) (1/2)).
  simpl in H. unfold shift_hue_px in H. simpl in H.
  rewrite rgb_to_hsv_gray in H.
  unfold colorsys.hsv_to_rgb in H.
  destruct (Req_EM_T 0 0) as [_|E]; [|congruence].
  simpl in H. rewrite Rmult_0_l, rgb_to_hsv_gray in H. simpl in H.
  assert (0 = 1/2) by (apply H; lra). lra.
Qed.

(** C2 (amended): [shift_hue] maps each pixel on its own, keeps alpha, and
    for a pixel with non-zero saturation and [factor > 0] (hue [h_out] in
    [0,1)) the output reads back in HSV as [(h_out, s, v * factor)]; an
    achromatic pixel ([s = 0]) stays gray with every channel [v * factor],
    and [factor = 0] makes the pixel black. *)
Theorem shift_hue_hsv_readback (arr : raster fpixel) (hout factor : R)
    (i j : nat) (p : fpixel) :
  pixel_at arr i j = Some p ->
  0 <= pr p -> 0 <= pg p -> 0 <= pb p -> 0 <= hout < 1 -> 0 <= factor ->
  let '(h, s, v) := colorsys.rgb_to_hsv (pr p) (pg p) (pb p) in
  let q := shift_hue_px hout factor p in
  pixel_at (shift_hue arr hout factor) i j = Some q /\
  pa q = pa p /\
  (0 < s -> 0 < factor ->
     colorsys.rgb_to_hsv (pr q) (pg q) (pb q) = (hout, s, v * factor)) /\
  (s = 0 -> pr q = v * factor /\ pg q = v * factor /\ pb q = v * factor) /\
  (factor = 0 -> pr q = 0 /\ pg q = 0 /\ pb q = 0).
Proof.
  intros Hp Hr Hg Hb Hh Hf.
  pose proof (rgb_to_hsv_range _ _ _ Hr Hg Hb) as Hrange.
  pose proof (rgb_to_hsv_sat_pos _ _ _ Hr Hg Hb) as Hpos.
  destruct (colorsys.rgb_to_hsv (pr p) (pg p) (pb p)) as [[h s] v] eqn:E.
  destruct Hrange as (_ & Hs & Hv).
  assert (Hv0 : 0 <= v) by (rewrite Hv; unfold Rmax; repeat destruct Rle_dec; lra).
  intros q. split; [|split; [apply pa_shift_hue_px|]].
  { unfold shift_hue. rewrite pixel_at_map, Hp. reflexivity. }
  unfold q, shift_hue_px. rewrite E.
  pose proof (hsv_rgb_hsv hout s (v * factor)) as Hback.
  pose proof (hsv_to_rgb_bounds hout s (v * factor)) as Hbd.
  destruct (colorsys.hsv_to_rgb hout s (v * factor)) as [[r' g'] b'] eqn:E2.
  simpl. split; [|split].
  - intros Hs0 Hf0. apply Hback; [lra|lra|]. apply Rmult_lt_0_compat; [apply Hpos|]; lra.
  - intros ->. unfold colorsys.hsv_to_rgb in E2.
    destruct (Req_EM_T 0 0) as [_|E3]; [|congruence].
    inversion E2. auto.
  - intros ->. rewrite Rmult_0_r in Hbd.
    destruct (Hbd ltac:(lra) Hs ltac:(lra)) as (H1 & H2 & H3). lra.
Qed.

Lemma shift_hue_hsv_readback_witness :
  let p := FPixel 255 0 0 255 in
  let '(h, s, v) := colorsys.rgb_to_hsv (pr p) (pg p) (pb p) in
  let q := shift_hue_px (1/2) (1/2) p in
  pixel_at (shift_hue [[p]] (1/2) (1/2)) 0 0 = Some q /\
  pa q = pa p /\
  (0 < s -> 0 < 1/2 ->
     colorsys.rgb_to_hsv (pr q) (pg q) (pb q) = (1/2, s, v * (1/2))) /\
  (s = 0 -> pr q = v * (1/2) /\ pg q = v * (1/2) /\ pb q = v * (1/2)) /\
  (1/2 = 0 -> pr q = 0 /\ pg q = 0 /\ pb q = 0).
Proof.
  apply (shift_hue_hsv_readback [[FPixel 255 0 0 255]] (1/2) (1/2) 0 0);
    simpl; first [reflexivity | lra].
Defined.

(** C3: neither [only_red] nor [shift_hue] touches the alpha channel, and
    every frame of the animation has, pixel for pixel, the alpha samples of
    the source image. *)
Theorem frames_preserve_alpha (c : config) (src : raster upixel) :
  wf_image src = true ->
  (forall p, pa (only_red_px p) = pa p) /\
  (forall hout factor p, pa (shift_hue_px hout factor p) = pa p) /\
  Forall (fun frame => map (map ua) frame = map (map ua) src) (frames c src).
Proof.
  intros Hwf. split; [apply pa_only_red_px|]. split; [apply pa_shift_hue_px|].
  apply Forall_forall. intros frame Hin.
  unfold frames in Hin. apply in_map_iff in Hin as [hb [<- _]].
  unfold render, astype_uint8, shift_hue, baseline, only_red, astype_float.
  rewrite !map_map. apply map_ext_in. intros row Hrow.
  rewrite !map_map. apply map_ext_in. intros p Hp.
  destruct (wf_image_pixel src row p Hwf Hrow Hp) as (_ & _ & _ & Ha).
  unfold astype_uint8_px. simpl.
  rewrite pa_shift_hue_px, pa_only_red_px. simpl. now apply to_uint8_IZR.
Qed.

Lemma frames_preserve_alpha_witness :
  Forall (fun frame => map (map ua) frame = [[128%Z]])
    (frames logo_config [[UPixel 200 10 20 128]]).
Proof.
  apply (frames_preserve_alpha logo_config [[UPixel 200 10 20 128]]).
  reflexivity.
Defined.

(** C4 (as stated it fails): [astype('uint8')] does not clamp.  With
    [factor = 2] a full red pixel gets red channel 510, which is cast to
    254, not to 255. *)
Lemma astype_uint8_wraps_at_510 :
  let q := shift_hue_px 0 2 (FPixel 255 0 0 255) in
  pr q = 510 /\ to_uint8 (pr q) = 254%Z /\
  ~ (forall x, 255 < x -> to_uint8 x = 255%Z).
Proof.
  assert (Hq : pr (shift_hue_px 0 2 (FPixel 255 0 0 255)) = 510).
  { unfold shift_hue_px. simpl. rewrite rgb_to_hsv_red by lra.
    rewrite (hsv_to_rgb_sector 0 1 (255 * 2) 0) by (simpl; lra || lia).
    simpl. ring. }
  assert (H510 : to_uint8 510 = 254%Z).
  { unfold to_uint8. destruct (cvttsd2si_int32 510 ltac:(lra)) as [-> _].
    rewrite (Int_part_eq 510 510) by lra. reflexivity. }
  simpl. rewrite Hq. split; [reflexivity|]. split; [exact H510|].
  intros H. specialize (H 510 ltac:(lra)). congruence.
Qed.

(** C4 (amended): the cast truncates and does not clamp.  A non-negative
    value below 256 becomes its floor; from 256 up to [2^31] the floor is
    kept modulo 256 (it wraps around); from [2^31] on the 32-bit conversion
    overflows to [0x80000000] and the byte is 0. *)
Theorem astype_uint8_truncates (x : R) :
  0 <= x ->
  (x < 256 -> to_uint8 x = Int_part x) /\
  (x < 2147483648 -> to_uint8 x = (Int_part x mod 256)%Z) /\
  (2147483648 <= x -> to_uint8 x = 0%Z).
Proof.
  intros Hx. split; [|split].
  - intros Hlt. apply to_uint8_small. lra.
  - intros Hlt. unfold to_uint8.
    now destruct (cvttsd2si_int32 x ltac:(lra)) as [-> _].
  - intros Hge. unfold to_uint8. now rewrite cvttsd2si_large.
Qed.

Lemma astype_uint8_truncates_witness :
  (510 < 256 -> to_uint8 510 = Int_part 510) /\
  (510 < 2147483648 -> to_uint8 510 = (Int_part 510 mod 256)%Z) /\
  (2147483648 <= 510 -> to_uint8 510 = 0%Z).
Proof. apply astype_uint8_truncates. lra. Defined.

(** C5: for channels in [0, 255], [hsv_to_rgb (rgb_to_hsv r g b)] gives back
    [(r, g, b)] (exactly, in exact arithmetic); the hue lies in [0,1), the
    saturation in [0,1] and the value is the largest channel. *)
Theorem colorsys_rgb_hsv_roundtrip (r g b : R) :
  0 <= r <= 255 -> 0 <= g <= 255 -> 0 <= b <= 255 ->
  let '(h, s, v) := colorsys.rgb_to_hsv r g b in
  colorsys.hsv_to_rgb h s v = (r, g, b) /\
  0 <= h < 1 /\ 0 <= s <= 1 /\ v = Rmax r (Rmax g b).
Proof.
  intros Hr Hg Hb.
  pose proof (rgb_hsv_rgb r g b ltac:(lra) ltac:(lra) ltac:(lra)) as Hrt.
  pose proof (rgb_to_hsv_range r g b ltac:(lra) ltac:(lra) ltac:(lra)) as Hrange.
  destruct (colorsys.rgb_to_hsv r g b) as [[h s] v].
  split; [exact Hrt | exact Hrange].
Qed.

Lemma colorsys_rgb_hsv_roundtrip_witness :
  let '(h, s, v) := colorsys.rgb_to_hsv 255 128 0 in
  colorsys.hsv_to_rgb h s v = (255, 128, 0) /\
  0 <= h < 1 /\ 0 <= s <= 1 /\ v = Rmax 255 (Rmax 128 0).
Proof. apply colorsys_rgb_hsv_roundtrip; lra. Defined.

(** C6: the brightness of every frame lies in [0, 1], and it is exactly 1
    when the sine term is 1. *)
Theorem brightness_in_unit_interval (c : config) (i : nat) :
  (i < FRAME_RATE c * DURATION c)%nat ->
  nth_error (schedule c) i = Some (hue c i, brightness c i) /\
  0 <= brightness c i <= 1 /\
  (sin (2 * PI * (INR (BLINKS c) / INR (DURATION c)) * elapsed_time c i) = 1 ->
   brightness c i = 1).
Proof.
  intros Hi. split; [now apply schedule_nth|]. split; [apply brightness_bounds|].
  intros Hs. unfold brightness. rewrite Hs. lra.
Qed.

Lemma brightness_in_unit_interval_witness :
  brightness (Config 4 1 1 1) 1 = 1.
Proof.
  destruct (brightness_in_unit_interval (Config 4 1 1 1) 1 ltac:(simpl; lia))
    as (_ & _ & H).
  apply H. unfold elapsed_time. simpl INR.
  replace (2 * PI * (1 / 1) * (1 / (1 + 1 + 1 + 1))) with (PI / 2) by field.
  apply sin_PI2.
Defined.

(** C7: the Baseline Buffer is the source with green and blue set to 0,
    red and alpha unchanged: the RGB -> HSV -> RGB round trip is the
    identity on pure-red pixels. *)
Theorem baseline_only_red (src : raster upixel) :
  wf_image src = true ->
  baseline src = map (map (fun p => FPixel (IZR (ur p)) 0 0 (IZR (ua p)))) src /\
  (forall r, 0 <= r ->
     (let '(h, s, v) := colorsys.rgb_to_hsv r 0 0 in colorsys.hsv_to_rgb h s v) = (r, 0, 0)).
Proof.
  intros Hwf. split; [now apply baseline_red|].
  intros r Hr. apply rgb_hsv_rgb; lra.
Qed.

Lemma baseline_only_red_witness :
  baseline [[UPixel 200 10 20 128; UPixel 0 255 255 0]] =
    [[FPixel 200 0 0 128; FPixel 0 0 0 0]].
Proof.
  apply (baseline_only_red [[UPixel 200 10 20 128; UPixel 0 255 255 0]]).
  reflexivity.
Defined.

(** C8 (as stated it fails): with zero frames the encoder never sees the
    input.  With [FRAME_RATE = 0] the script stops at line 51 on
    [1000 / FRAME_RATE] (ZeroDivisionError); with [DURATION = 0] it stops
    on [frames[0]] (IndexError) before [save] runs.  Neither is a rejection
    by the encoder nor an error particular to the configuration. *)
Lemma empty_frames_no_encoder_rejection :
  main (Config 0 3 1 3) [] = Raised 51 ZeroDivisionError /\
  main (Config 15 0 1 3) [] = Raised 66 IndexError.
Proof. split; reflexivity. Qed.

(** C8 (amended): when [FRAME_RATE * DURATION = 0] no artifact is written:
    the script ends in an uncaught exception, ZeroDivisionError at line 51
    when [FRAME_RATE = 0], else IndexError at [frames[0]] (line 66). *)
Theorem empty_frames_raise (c : config) (src : raster upixel) :
  (FRAME_RATE c * DURATION c = 0)%nat ->
  main c src =
    (if Nat.eqb (FRAME_RATE c) 0 then Raised 51 ZeroDivisionError
     else Raised 66 IndexError) /\
  (forall call, main c src <> Saved call).
Proof.
  intros H.
  assert (Hm : main c src =
    (if Nat.eqb (FRAME_RATE c) 0 then Raised 51 ZeroDivisionError
     else Raised 66 IndexError)).
  { unfold main. destruct (Nat.eqb (FRAME_RATE c) 0); [reflexivity|].
    now rewrite (frames_nil c src H). }
  split; [exact Hm|]. intros call. rewrite Hm.
  destruct (Nat.eqb _ _); discriminate.
Qed.

Lemma empty_frames_raise_witness :
  main (Config 15 0 1 3) [[UPixel 200 10 20 128]] = Raised 66 IndexError.
Proof.
  exact (proj1 (empty_frames_raise (Config 15 0 1 3) [[UPixel 200 10 20 128]]
                  ltac:(simpl; lia))).
Defined.

(** C9: the duration handed to the encoder is [1000 / FRAME_RATE] itself
    (66.67 ms for 15 fps), not [frame_duration_ms = round(1000 / 15) = 67]. *)
Theorem save_duration_unrounded (src : raster upixel) :
  exists call,
    main logo_config src = Saved call /\
    save_duration call = 1000 / 15 /\ 66 < save_duration call < 67 /\
    frame_duration_ms logo_config = 67%Z /\
    save_duration call <> IZR (frame_duration_ms logo_config).
Proof.
  destruct (frames_cons logo_config src ltac:(simpl; lia)) as (f0 & rest & E).
  assert (Hd : INR (FRAME_RATE logo_config) = 15)
    by (rewrite INR_IZR_INZ; reflexivity).
  assert (Hr : frame_duration_ms logo_config = 67%Z).
  { unfold frame_duration_ms, Py.round, Py.floor. rewrite Hd.
    rewrite (Int_part_eq 66) by lra.
    destruct (Rlt_dec _ _); [lra|]. destruct (Rlt_dec _ _); [reflexivity|lra]. }
  eexists. split.
  { unfold main. simpl Nat.eqb. cbv zeta. rewrite E. reflexivity. }
  cbn [save_duration]. rewrite Hd, Hr. split; [reflexivity|]. split; [lra|].
  split; [reflexivity|]. lra.
Qed.

(** C10: in every frame of the pipeline (any configuration, source samples
    in [0, 255]) every channel reaching [astype('uint8')] lies in [0, 255]:
    the brightness factor is in [0, 1] and the hue non-negative, so the cast
    is a plain floor and never wraps. *)
Theorem pipeline_channels_no_wrap (c : config) (src : raster upixel) :
  wf_image src = true ->
  Forall (fun hb =>
    0 <= fst hb /\ 0 <= snd hb <= 1 /\
    let arr := shift_hue (baseline src) (fst hb) (snd hb) in
    Forall (Forall fpixel_in_range) arr /\
    astype_uint8 arr = map (map floor_px) arr) (schedule c).
Proof.
  intros Hwf. apply Forall_forall. intros hb Hin.
  unfold schedule in Hin. apply in_map_iff in Hin as [i [<- _]]. simpl.
  pose proof (hue_nonneg c i) as Hh. pose proof (brightness_bounds c i) as Hb.
  split; [exact Hh|]. split; [exact Hb|].
  assert (Hin : Forall (Forall fpixel_in_range)
                  (shift_hue (baseline src) (hue c i) (brightness c i))).
  { unfold shift_hue. apply Forall_map.
    apply (Forall_impl _ (P := Forall fpixel_in_range)); [|now apply baseline_in_range].
    intros row Hrow. apply Forall_map.
    apply (Forall_impl _ (P := fpixel_in_range)); [|exact Hrow].
    intros p Hp. now apply shift_hue_px_in_range. }
  split; [exact Hin|]. now apply astype_uint8_in_range.
Qed.

Lemma pipeline_channels_no_wrap_witness :
  Forall (fun hb =>
    0 <= fst hb /\ 0 <= snd hb <= 1 /\
    let arr := shift_hue (baseline [[UPixel 200 10 20 128]]) (fst hb) (snd hb) in
    Forall (Forall fpixel_in_range) arr /\
    astype_uint8 arr = map (map floor_px) arr) (schedule logo_config).
Proof.
  apply (pipeline_channels_no_wrap logo_config [[UPixel 200 10 20 128]]).
  reflexivity.
Defined.

(** * Further properties of logo.py *)

(** ** Helper facts *)

(** [hsv_to_rgb] is linear in the value. *)
Lemma hsv_to_rgb_scale (h s v k : R) :
  colorsys.hsv_to_rgb h s (v * k) =
    (let '(r, g, b) := colorsys.hsv_to_rgb h s v in (r * k, g * k, b * k)).
Proof.
  unfold colorsys.hsv_to_rgb.
  destruct (Req_EM_T s 0); [reflexivity|].
  generalize (Py.int (h * 6)); intros i.
  generalize (i mod 6)%Z; intros z.
  repeat match goal with
  | |- context [match ?x with _ => _ end] => is_var x; destruct x
  end; pair_eq; ring.
Qed.

Lemma hsv_to_rgb_zero (h s : R) : colorsys.hsv_to_rgb h s 0 = (0, 0, 0).
Proof.
  replace 0 with (0 * 0) at 1 by ring. rewrite hsv_to_rgb_scale.
  destruct (colorsys.hsv_to_rgb h s 0) as [[r g] b]. pair_eq; ring.
Qed.

Lemma py_int_shift (x : R) (n : nat) :
  0 <= x -> Py.int (x + INR n * 6) = (Py.int x + Z.of_nat n * 6)%Z.
Proof.
  intros Hx. destruct (base_Int_part x) as [H1 H2].
  assert (Hk : (0 <= Int_part x)%Z).
  { assert (Hlt : (-1 < Int_part x)%Z) by (apply lt_IZR; simpl; lra). lia. }
  rewrite (py_int_nonneg (Int_part x) x Hk) by lra.
  apply py_int_nonneg; [lia|].
  rewrite plus_IZR, mult_IZR, <- INR_IZR_INZ. lra.
Qed.

(** [hsv_to_rgb] is 1-periodic in a non-negative hue. *)
Lemma hsv_to_rgb_periodic (h s v : R) (n : nat) :
  0 <= h -> colorsys.hsv_to_rgb (h + INR n) s v = colorsys.hsv_to_rgb h s v.
Proof.
  intros Hh. unfold colorsys.hsv_to_rgb.
  destruct (Req_EM_T s 0); [reflexivity|].
  replace ((h + INR n) * 6) with (h * 6 + INR n * 6) by ring.
  rewrite py_int_shift by lra.
  rewrite Z_mod_plus_full.
  replace (h * 6 + INR n * 6 - IZR (Py.int (h * 6) + Z.of_nat n * 6))
    with (h * 6 - IZR (Py.int (h * 6)))
    by (rewrite plus_IZR, mult_IZR, <- INR_IZR_INZ; simpl; ring).
  reflexivity.
Qed.

Lemma map_map_ext_Forall {A B : Type} (P : A -> Prop) (f g : A -> B) (arr : raster A) :
  Forall (Forall P) arr -> (forall p, P p -> f p = g p) ->
  map (map f) arr = map (map g) arr.
Proof.
  intros H Hfg. apply map_ext_in. intros row Hrow. apply map_ext_in. intros p Hp.
  rewrite Forall_forall in H. specialize (H row Hrow).
  rewrite Forall_forall in H. now apply Hfg, H.
Qed.

Lemma adjust_brightness_px_scale (factor : R) (p : fpixel) :
  fpixel_nonneg p -> adjust_brightness_px factor p = scale_px factor p.
Proof.
  intros (Hr & Hg & Hb). unfold adjust_brightness_px.
  pose proof (rgb_hsv_rgb (pr p) (pg p) (pb p) Hr Hg Hb) as E.
  destruct (colorsys.rgb_to_hsv (pr p) (pg p) (pb p)) as [[h s] v].
  rewrite hsv_to_rgb_scale, E. unfold scale_px. f_equal; ring.
Qed.

Lemma adjust_brightness_map (arr : raster fpixel) (factor : R) :
  Forall (Forall fpixel_nonneg) arr ->
  adjust_brightness arr factor = map (map (scale_px factor)) arr.
Proof.
  intros H. apply (map_map_ext_Forall fpixel_nonneg); [exact H|].
  apply adjust_brightness_px_scale.
Qed.

Lemma shift_hue_px_scale (hout factor : R) (p : fpixel) :
  shift_hue_px hout factor p = scale_px factor (shift_hue_px hout 1 p).
Proof.
  unfold shift_hue_px.
  destruct (colorsys.rgb_to_hsv (pr p) (pg p) (pb p)) as [[h s] v].
  rewrite hsv_to_rgb_scale, Rmult_1_r.
  destruct (colorsys.hsv_to_rgb hout s v) as [[r g] b].
  unfold scale_px. simpl. f_equal; ring.
Qed.

Lemma hsv_to_rgb_gray (h v : R) : colorsys.hsv_to_rgb h 0 v = (v, v, v).
Proof. unfold colorsys.hsv_to_rgb. rdec. reflexivity. Qed.

Lemma shift_hue_px_compose (h1 f1 h2 f2 : R) (p : fpixel) :
  fpixel_nonneg p -> 0 <= h1 < 1 -> 0 <= f1 ->
  shift_hue_px h2 f2 (shift_hue_px h1 f1 p) = shift_hue_px h2 (f1 * f2) p.
Proof.
  intros (Hr & Hg & Hb) Hh1 Hf1.
  pose proof (rgb_to_hsv_range _ _ _ Hr Hg Hb) as Hrange.
  pose proof (rgb_to_hsv_sat_pos _ _ _ Hr Hg Hb) as Hpos.
  unfold shift_hue_px at 2 3.
  destruct (colorsys.rgb_to_hsv (pr p) (pg p) (pb p)) as [[h s] v] eqn:E.
  destruct Hrange as (_ & Hs & _).
  destruct (Req_dec s 0) as [->|Hs0].
  - rewrite !hsv_to_rgb_gray. unfold shift_hue_px. simpl.
    rewrite rgb_to_hsv_gray, !hsv_to_rgb_gray. f_equal; ring.
  - assert (Hsp : 0 < s) by lra. specialize (Hpos Hsp).
    destruct (Req_dec f1 0) as [->|Hf0].
    + rewrite Rmult_0_r, hsv_to_rgb_zero.
      replace (v * (0 * f2)) with 0 by ring. rewrite hsv_to_rgb_zero.
      unfold shift_hue_px. simpl.
      rewrite rgb_to_hsv_gray, hsv_to_rgb_gray. f_equal; ring.
    + pose proof (hsv_rgb_hsv h1 s (v * f1) Hh1 ltac:(lra)
                    ltac:(apply Rmult_lt_0_compat; lra)) as Hback.
      destruct (colorsys.hsv_to_rgb h1 s (v * f1)) as [[r g] b].
      unfold shift_hue_px. simpl. rewrite Hback. now rewrite Rmult_assoc.
Qed.

Lemma pixel_at_In {A : Type} (arr : raster A) (i j : nat) (p : A) :
  pixel_at arr i j = Some p -> exists row, In row arr /\ In p row.
Proof.
  unfold pixel_at. destruct (nth_error arr i) as [row|] eqn:E; [|discriminate].
  intros Hp. exists row. split; eapply nth_error_In; eauto.
Qed.

(** ** Extra properties *)

(** [adjust_brightness] multiplies the three colour channels of every
    pixel by [factor] (for non-negative channels) and keeps alpha. *)
Theorem adjust_brightness_scales (arr : raster fpixel) (factor : R) :
  Forall (Forall fpixel_nonneg) arr ->
  adjust_brightness arr factor = map (map (scale_px factor)) arr.
Proof. apply adjust_brightness_map. Qed.

Lemma adjust_brightness_scales_witness :
  adjust_brightness [[FPixel 200 100 0 255]] (1/2) =
    [[scale_px (1/2) (FPixel 200 100 0 255)]].
Proof.
  apply (adjust_brightness_scales [[FPixel 200 100 0 255]] (1/2)).
  repeat constructor; simpl; lra.
Defined.

(** Two brightness adjustments compose: the factors multiply (the first
    factor non-negative, channels non-negative). *)
Theorem adjust_brightness_compose (arr : raster fpixel) (f1 f2 : R) :
  Forall (Forall fpixel_nonneg) arr -> 0 <= f1 ->
  adjust_brightness (adjust_brightness arr f1) f2 = adjust_brightness arr (f1 * f2).
Proof.
  intros H Hf1. rewrite (adjust_brightness_map arr f1 H), (adjust_brightness_map arr).
  2: exact H.
  rewrite adjust_brightness_map.
  - rewrite map_map. apply map_ext. intros row. rewrite map_map. apply map_ext.
    intros p. unfold scale_px. simpl. f_equal; ring.
  - apply Forall_map. eapply Forall_impl; [|exact H]. intros row Hrow.
    apply Forall_map. eapply Forall_impl; [|exact Hrow].
    intros p (Hr & Hg & Hb). unfold fpixel_nonneg, scale_px. simpl.
    repeat split; apply Rmult_le_pos; lra.
Qed.

Lemma adjust_brightness_compose_witness :
  adjust_brightness (adjust_brightness [[FPixel 200 100 0 255]] (1/2)) (1/4) =
    adjust_brightness [[FPixel 200 100 0 255]] (1/2 * (1/4)).
Proof.
  apply adjust_brightness_compose; [repeat constructor; simpl; lra | lra].
Defined.

(** In [shift_hue] the brightness factor only scales: the result is the
    full-brightness ([factor = 1]) result with every colour channel
    multiplied by [factor], alpha kept. *)
Theorem shift_hue_factor_scales (arr : raster fpixel) (hout factor : R) :
  shift_hue arr hout factor = map (map (scale_px factor)) (shift_hue arr hout 1).
Proof.
  unfold shift_hue. rewrite map_map. apply map_ext. intros row.
  rewrite map_map. apply map_ext. intros p. apply shift_hue_px_scale.
Qed.

(** A hue beyond 1 is taken modulo 1: for a non-negative hue, adding a
    whole number of turns does not change [hsv_to_rgb] nor [shift_hue]. *)
Theorem shift_hue_hue_periodic (arr : raster fpixel) (hout factor : R) (n : nat) :
  0 <= hout ->
  (forall s v, colorsys.hsv_to_rgb (hout + INR n) s v = colorsys.hsv_to_rgb hout s v) /\
  shift_hue arr (hout + INR n) factor = shift_hue arr hout factor.
Proof.
  intros Hh. split; [intros; now apply hsv_to_rgb_periodic|].
  unfold shift_hue. apply map_ext. intros row. apply map_ext. intros p.
  unfold shift_hue_px.
  destruct (colorsys.rgb_to_hsv _ _ _) as [[h s] v].
  now rewrite hsv_to_rgb_periodic.
Qed.

Lemma shift_hue_hue_periodic_witness :
  shift_hue [[FPixel 200 0 0 255]] (1/3 + INR 2) (1/2) =
    shift_hue [[FPixel 200 0 0 255]] (1/3) (1/2).
Proof. apply (shift_hue_hue_periodic _ _ _ 2); lra. Defined.

(** Two hue shifts compose: the second hue replaces the first and the
    factors multiply (channels non-negative, first hue in [0,1), first
    factor non-negative). *)
Theorem shift_hue_compose (arr : raster fpixel) (h1 f1 h2 f2 : R) :
  Forall (Forall fpixel_nonneg) arr -> 0 <= h1 < 1 -> 0 <= f1 ->
  shift_hue (shift_hue arr h1 f1) h2 f2 = shift_hue arr h2 (f1 * f2).
Proof.
  intros H Hh Hf. unfold shift_hue.
  transitivity (map (map (fun p => shift_hue_px h2 f2 (shift_hue_px h1 f1 p))) arr).
  { rewrite map_map. apply map_ext. intros row. apply map_map. }
  apply (map_map_ext_Forall fpixel_nonneg); [exact H|].
  intros p Hp. now apply shift_hue_px_compose.
Qed.

Lemma shift_hue_compose_witness :
  shift_hue (shift_hue [[FPixel 200 100 0 255]] (1/3) (1/2)) (2/3) (1/2) =
    shift_hue [[FPixel 200 100 0 255]] (2/3) (1/2 * (1/2)).
Proof.
  apply shift_hue_compose; [repeat constructor; simpl; lra | lra | lra].
Defined.

(** [rgb_to_hsv] is scale-invariant: channels multiplied by [k > 0] give
    the same hue and saturation and a value multiplied by [k]; so the
    script's 0-255 samples get the hue and saturation that 0-1 samples
    would. *)
Theorem rgb_to_hsv_scale_invariant (r g b k : R) :
  0 <= r -> 0 <= g -> 0 <= b -> 0 < k ->
  colorsys.rgb_to_hsv (k * r) (k * g) (k * b) =
    (let '(h, s, v) := colorsys.rgb_to_hsv r g b in (h, s, k * v)).
Proof.
  intros Hr Hg Hb Hk.
  pose proof (rgb_hsv_rgb r g b Hr Hg Hb) as Hrt.
  pose proof (rgb_to_hsv_range r g b Hr Hg Hb) as Hrange.
  pose proof (rgb_to_hsv_sat_pos r g b Hr Hg Hb) as Hpos.
  destruct (colorsys.rgb_to_hsv r g b) as [[h s] v] eqn:E.
  destruct Hrange as (Hh & Hs & _).
  destruct (Req_dec s 0) as [->|Hs0].
  - rewrite hsv_to_rgb_gray in Hrt. inversion Hrt; subst r g b.
    rewrite rgb_to_hsv_gray in E. inversion E; subst.
    apply rgb_to_hsv_gray.
  - assert (Hsp : 0 < s) by lra. specialize (Hpos Hsp).
    pose proof (hsv_to_rgb_scale h s v k) as Hsc. rewrite Hrt in Hsc.
    pose proof (hsv_rgb_hsv h s (v * k) Hh ltac:(lra)
                  ltac:(apply Rmult_lt_0_compat; lra)) as Hback.
    rewrite Hsc in Hback.
    rewrite (Rmult_comm k r), (Rmult_comm k g), (Rmult_comm k b), (Rmult_comm k v).
    exact Hback.
Qed.

Lemma rgb_to_hsv_scale_invariant_witness :
  colorsys.rgb_to_hsv (/ 255 * 255) (/ 255 * 128) (/ 255 * 0) =
    (let '(h, s, v) := colorsys.rgb_to_hsv 255 128 0 in (h, s, / 255 * v)).
Proof. apply rgb_to_hsv_scale_invariant; lra. Defined.

(** What frame [i] looks like before the cast: at a source pixel with red
    sample [r], the frame pixel keeps the source alpha; it is black when
    [r = 0] or the brightness is 0; otherwise (hue below 1) it is the fully
    saturated colour of hue [hue(i)] with value [r * brightness(i)]. *)
Theorem frame_pixel_colour (c : config) (src : raster upixel) (i x y : nat) (p : upixel) :
  wf_image src = true -> pixel_at src x y = Some p ->
  exists q,
    pixel_at (shift_hue (baseline src) (hue c i) (brightness c i)) x y = Some q /\
    pa q = IZR (ua p) /\
    ((ur p = 0)%Z \/ brightness c i = 0 -> pr q = 0 /\ pg q = 0 /\ pb q = 0) /\
    (hue c i < 1 -> (0 < ur p)%Z -> 0 < brightness c i ->
       colorsys.rgb_to_hsv (pr q) (pg q) (pb q) =
         (hue c i, 1, IZR (ur p) * brightness c i)).
Proof.
  intros Hwf Hp.
  destruct (pixel_at_In src x y p Hp) as (row & Hrow & Hin).
  destruct (wf_image_pixel src row p Hwf Hrow Hin) as (Hr & _).
  rewrite (baseline_red src Hwf). unfold shift_hue.
  rewrite !pixel_at_map, Hp. eexists. split; [reflexivity|].
  split; [apply pa_shift_hue_px|].
  pose proof (hue_nonneg c i) as Hh.
  split.
  - intros [Hz|Hz].
    + rewrite Hz. unfold shift_hue_px. simpl.
      rewrite rgb_to_hsv_gray, hsv_to_rgb_gray. simpl. repeat split; ring.
    + rewrite Hz. unfold shift_hue_px.
      destruct (colorsys.rgb_to_hsv _ _ _) as [[h s] v].
      rewrite Rmult_0_r, hsv_to_rgb_zero. simpl. auto.
  - intros Hh1 Hr0 Hb. apply IZR_lt in Hr0. simpl in Hr0.
    unfold shift_hue_px. simpl. rewrite rgb_to_hsv_red by exact Hr0.
    pose proof (hsv_rgb_hsv (hue c i) 1 (IZR (ur p) * brightness c i)
                  ltac:(lra) ltac:(lra) ltac:(apply Rmult_lt_0_compat; lra)) as Hback.
    destruct (colorsys.hsv_to_rgb _ _ _) as [[r' g'] b']. exact Hback.
Qed.

Lemma frame_pixel_colour_witness :
  exists q,
    pixel_at (shift_hue (baseline [[UPixel 200 10 20 128]])
                (hue logo_config 5) (brightness logo_config 5)) 0 0 = Some q /\
    pa q = IZR 128 /\
    ((200 = 0)%Z \/ brightness logo_config 5 = 0 -> pr q = 0 /\ pg q = 0 /\ pb q = 0) /\
    (hue logo_config 5 < 1 -> (0 < 200)%Z -> 0 < brightness logo_config 5 ->
       colorsys.rgb_to_hsv (pr q) (pg q) (pb q) =
         (hue logo_config 5, 1, IZR 200 * brightness logo_config 5)).
Proof.
  exact (frame_pixel_colour logo_config [[UPixel 200 10 20 128]] 5 0 0
           (UPixel 200 10 20 128) eq_refl eq_refl).
Defined.
